(** * hobbit.actions: a verification development

    Shallow embedding of [src/hobbit/actions/__init__.py]:
    - [Action.__hash__] and [Action._get_kwargs_hash], the identity hash of
      a scraping action, and the helper [Action._hash_or_empty];
    - [CheckPageRepeat], the detector of repeated page texts;
    - [ThreadAction.__init__] and [ThreadAction.get_pages], the fetch loop
      over a thread pool.

    Python objects are modelled by the inductive [value]; a dict is an
    association list in iteration (insertion) order; Python integers are
    [Z], so that [^] is [Z.lxor].  A call of the builtin [hash] that raises
    [TypeError] (unhashable type) is [None]. *)

From Stdlib Require Import ZArith Lia.
From stdpp Require Import base option list strings.

#[local] Set Warnings "-register-all".

Local Open Scope Z_scope.

(** ** Python values *)

Inductive value : Type :=
| VStr (s : string)
| VInt (n : Z)
| VNone
| VList (xs : list value)
| VDict (items : list (string * value)).

(** [isinstance(value, MutableMapping)]: of the modelled objects only a dict
    is a mutable mapping. *)
Definition is_MutableMapping (v : value) : bool :=
  match v with
  | VDict _ => true
  | _ => false
  end.

(** Truth value of an object, as [or] and [if] test it. *)
Definition truthy (v : value) : bool :=
  match v with
  | VStr s => negb (bool_decide (s = EmptyString))
  | VInt n => negb (n =? 0)
  | VNone => false
  | VList xs => negb (bool_decide (xs = []))
  | VDict items => match items with [] => false | _ => true end
  end.

(** [a or b] *)
Definition py_or (a b : value) : value := if truthy a then a else b.

(** [d.get(key)]: the value stored under [key], Python's [None] when the key
    is absent. *)
Fixpoint dict_get (d : list (string * value)) (key : string) : value :=
  match d with
  | [] => VNone
  | (k, v) :: rest => if bool_decide (k = key) then v else dict_get rest key
  end.

(** [key in d] *)
Definition dict_has (d : list (string * value)) (key : string) : bool :=
  bool_decide (key ∈ d.*1).

(** ** Action *)

Record Action : Type := mkAction {
  args : list value;
  kwargs : list (string * value);
  is_result : bool
}.

(** [Action.__init__(self, *args, **kwargs)] *)
Definition Action_init (a : list value) (kw : list (string * value)) : Action :=
  {| args := a; kwargs := kw; is_result := false |}.

Section ActionIdentity.

(** The builtin [hash] is supplied by the interpreter: on [str] it is
  salted per process, so it is a parameter of the development. *)
Variable str_hash : string -> Z.
Variable int_hash : Z -> Z.
Variable none_hash : Z.

(** [hash(v)]; lists and dicts are unhashable (TypeError). *)
Definition hash (v : value) : option Z :=
  match v with
  | VStr s => Some (str_hash s)
  | VInt n => Some (int_hash n)
  | VNone => Some none_hash
  | VList _ => None
  | VDict _ => None
  end.

(** [Action._get_kwargs_hash], by recursion on the mapping it is called
  on.  The inner [loop] is the [for key, value in kwargs.items()] loop,
  [kwargs_hash] its accumulator. *)
Fixpoint mapping_hash (mapping : value) : option Z :=
  match mapping with
  | VDict kwargs =>
      (fix loop (items : list (string * value)) (kwargs_hash : Z) {struct items} : option Z :=
         match items with
         | [] => Some kwargs_hash
         | (key, value) :: rest =>
             match (if is_MutableMapping value
                    then mapping_hash value
                    else h ← hash value; Some (Z.lxor (str_hash key) h)) with
             | Some h => loop rest (Z.lxor kwargs_hash h)
             | None => None
             end
         end) kwargs (str_hash EmptyString)
  | _ => None
  end.

Definition _get_kwargs_hash (kwargs : list (string * value)) : option Z :=
  mapping_hash (VDict kwargs).

(** [reduce(xor, map(hash, self.args))] on a non-empty tuple. *)
Fixpoint reduce_xor (acc : Z) (rest : list value) : option Z :=
  match rest with
  | [] => Some acc
  | x :: rest' => h ← hash x; reduce_xor (Z.lxor acc h) rest'
  end.

(** [Action.__hash__] *)
Definition __hash__ (self : Action) : option Z :=
  kwargs_hash ← _get_kwargs_hash (kwargs self);
  args_hash ← match args self with
              | [] => Some (str_hash EmptyString)
              | x :: rest => h ← hash x; reduce_xor h rest
              end;
  Some (Z.lxor kwargs_hash args_hash).

End ActionIdentity.

(** ** Equality of mappings up to insertion order

    [same_items d1 d2]: the two association lists hold the same key/value
    pairs, listed in any order, where two values that are mappings are
    themselves compared up to order ([same_value]). *)

Inductive same_value : value -> value -> Prop :=
| same_value_refl v : same_value v v
| same_value_dict d1 d2 : same_items d1 d2 -> same_value (VDict d1) (VDict d2)
with same_items : list (string * value) -> list (string * value) -> Prop :=
| same_items_nil : same_items [] []
| same_items_skip key v1 v2 d1 d2 :
    same_value v1 v2 -> same_items d1 d2 ->
    same_items ((key, v1) :: d1) ((key, v2) :: d2)
| same_items_swap e1 e2 d : same_items (e1 :: e2 :: d) (e2 :: e1 :: d)
| same_items_trans d1 d2 d3 :
    same_items d1 d2 -> same_items d2 d3 -> same_items d1 d3.

Scheme same_value_mut := Minimality for same_value Sort Prop
  with same_items_mut := Minimality for same_items Sort Prop.
Combined Scheme same_mutind from same_value_mut, same_items_mut.

Section IdentitySpec.

Variable str_hash : string -> Z.
Variable int_hash : Z -> Z.
Variable none_hash : Z.

(** What one [key, value] pair contributes to the accumulator of
    [_get_kwargs_hash]. *)
Definition entry_hash (entry : string * value) : option Z :=
  let '(key, value) := entry in
  if is_MutableMapping value
  then mapping_hash str_hash int_hash none_hash value
  else h ← hash str_hash int_hash none_hash value; Some (Z.lxor (str_hash key) h).

(** XOR of all the contributions into [init]; [None] as soon as one of them
    is an error. *)
Definition xor_all (init : Z) (hs : list (option Z)) : option Z :=
  foldr (λ o acc, h ← o; a ← acc; Some (Z.lxor a h)) (Some init) hs.

(** The attribute-mapping hash as the specification words it: every pair
    contributes [hash(key) XOR innerHash(value)], also when the value is a
    nested mapping. *)
Fixpoint spec_inner_hash (v : value) : option Z :=
  match v with
  | VDict kwargs =>
      (fix combine (items : list (string * value)) (acc : Z) {struct items} : option Z :=
         match items with
         | [] => Some acc
         | (key, value) :: rest =>
             match spec_inner_hash value with
             | Some h => combine rest (Z.lxor acc (Z.lxor (str_hash key) h))
             | None => None
             end
         end) kwargs (str_hash EmptyString)
  | _ => hash str_hash int_hash none_hash v
  end.

Definition spec_attributes_hash (kwargs : list (string * value)) : option Z :=
  spec_inner_hash (VDict kwargs).

End IdentitySpec.

(** Hash functions to evaluate the definitions on concrete actions. *)
Fixpoint demo_str_hash_from (h : Z) (s : string) : Z :=
  match s with
  | EmptyString => h
  | String c s' => demo_str_hash_from (31 * h + Z.of_nat (Ascii.nat_of_ascii c)) s'
  end.
Definition demo_str_hash (s : string) : Z := demo_str_hash_from 0 s.
Definition demo_int_hash (n : Z) : Z := n.
Definition demo_none_hash : Z := 4238894112.

(** ** CheckPageRepeat *)

Record CheckPageRepeat : Type := mkCheckPageRepeat {
  __last_page_text : option string;
  __repeat_page : Z;
  __check_break : bool;
  max_page_repeat : Z
}.

(** [CheckPageRepeat.__init__(self, max_page_repeat=3)] *)
Definition CheckPageRepeat_init (max_page_repeat : Z) : CheckPageRepeat :=
  {| __last_page_text := None;
     __repeat_page := 0;
     __check_break := false;
     max_page_repeat := max_page_repeat |}.

(** The [check_break] property. *)
Definition check_break (self : CheckPageRepeat) : bool := __check_break self.

(** [CheckPageRepeat.__call__(self, page_text)]: the returned flag and the
    object after the call. *)
Definition __call__ (self : CheckPageRepeat) (page_text : string)
  : bool * CheckPageRepeat :=
  let repeat := false in
  let '(self, repeat) :=
    if bool_decide (Some page_text = __last_page_text self)
    then ({| __last_page_text := __last_page_text self;
             __repeat_page := __repeat_page self + 1;
             __check_break := __check_break self;
             max_page_repeat := max_page_repeat self |}, true)
    else ({| __last_page_text := Some page_text;
             __repeat_page := 0;
             __check_break := __check_break self;
             max_page_repeat := max_page_repeat self |}, repeat) in
  let self :=
    if __repeat_page self >? __repeat_page self
    then {| __last_page_text := __last_page_text self;
            __repeat_page := __repeat_page self;
            __check_break := true;
            max_page_repeat := max_page_repeat self |}
    else self in
  (repeat, self).

(** The guard after observing a sequence of page texts, one call each. *)
Definition observe_all (self : CheckPageRepeat) (pages : list string)
  : CheckPageRepeat :=
  fold_left (λ g page_text, (__call__ g page_text).2) pages self.

(** ** ThreadAction *)

(** A [ThreadAction] is an [Action] with one more attribute. *)
Record ThreadAction : Type := mkThreadAction {
  action : Action;
  max_workers : value
}.

(** [ThreadAction.__init__(self, *args, **kwargs)] *)
Definition ThreadAction_init (a : list value) (kw : list (string * value))
  : ThreadAction :=
  {| action := Action_init a kw;
     max_workers := py_or (dict_get kw "max_workers") (VInt 5) |}.

(** Exceptions, by class. *)
Inductive exn : Type :=
| TypeError
| ValueError
| TransportError (detail : string).

(** [ThreadPoolExecutor(max_workers=...)] of [concurrent.futures]: the
    constructor tests [max_workers <= 0] and raises [ValueError] when it
    holds; the comparison itself raises [TypeError] on an object that is not
    a number; [None] lets the pool choose its own bound. *)
Definition ThreadPoolExecutor (max_workers : value) : exn + unit :=
  match max_workers with
  | VInt n => if n <=? 0 then inl ValueError else inr ()
  | VNone => inr ()
  | _ => inl TypeError
  end.

(** How a submitted call of [robber.get_region(url)] ends: [future.result()]
    returns the page text or raises the exception of the call. *)
Inductive fetched : Type :=
| Fetched (page_text : string)
| Failed (e : exn).

(** How the generator ends: the loop ran out of futures, it left through
    [break], or an exception reached the consumer. *)
Inductive ending : Type :=
| Exhausted
| Stopped
| Raised (e : exn).

Record pages (tag : Type) : Type := mkPages {
  yielded : list (string * tag);
  submitted : list string;
  end_of_pages : ending
}.
Arguments mkPages {tag} _ _ _.
Arguments yielded {tag} _.
Arguments submitted {tag} _.
Arguments end_of_pages {tag} _.

Section GetPages.

(** The parser: [BeautifulSoup(page_text, 'html.parser')]. *)
Variable tag : Type.
Variable BeautifulSoup : string -> tag.

(** The transport: [robber i url] is the end of the [i]-th submitted call
    [robber.get_region(url)]; the index lets a transport answer two calls on
    one URL differently. *)
Variable robber : nat -> string -> fetched.

(** [{executor.submit(robber.get_region, url): url for url in urls}]: one
    future per element of [urls], the future of position [i] being the key
    of the [i]-th entry. *)
Definition submit_all (urls : list string) : list (fetched * string) :=
  imap (λ i url, (robber i url, url)) urls.

(** [for future in as_completed(future_set): ...], where [completed] lists
    the futures (positions in [future_set]) in the order they complete. *)
Fixpoint drain (future_set : list (fetched * string))
  (check_page_repeat : CheckPageRepeat) (completed : list nat)
  : list (string * tag) * ending :=
  match completed with
  | [] => ([], Exhausted)
  | future :: later =>
      match future_set !! future with
      | None => drain future_set check_page_repeat later
      | Some (Failed e, _) => ([], Raised e)
      | Some (Fetched page_text, url) =>
          let page_tag := BeautifulSoup page_text in
          let '(repeat, check_page_repeat) := __call__ check_page_repeat page_text in
          if negb repeat
          then let '(rest, e) := drain future_set check_page_repeat later in
               ((url, page_tag) :: rest, e)
          else if check_break check_page_repeat
          then ([], Stopped)
          else drain future_set check_page_repeat later
      end
  end.

(** [ThreadAction.get_pages(self, robber, urls)] run to its end, for the
    completion order [completed]. *)
Definition get_pages (self : ThreadAction) (urls : list string)
  (completed : list nat) : pages tag :=
  let check_page_repeat := CheckPageRepeat_init 3 in
  match ThreadPoolExecutor (max_workers self) with
  | inl e => mkPages [] [] (Raised e)
  | inr _ =>
      let future_set := submit_all urls in
      let '(ys, e) := drain future_set check_page_repeat completed in
      mkPages ys future_set.*2 e
  end.

End GetPages.

(** Transports to evaluate [get_pages] on concrete runs: one that answers
    every call with the URL itself as page text, and one whose call of
    position 1 raises. *)
Definition echo_robber (i : nat) (url : string) : fetched := Fetched url.
Definition failing_robber (i : nat) (url : string) : fetched :=
  if (i =? 1)%nat then Failed (TransportError "timeout") else Fetched url.

(** ** Further definitions *)

Section HashOrEmpty.

Variable str_hash : string -> Z.
Variable int_hash : Z -> Z.
Variable none_hash : Z.

(** [Action._hash_or_empty(value)]: [hash(value) if value else hash('')]. *)
Definition _hash_or_empty (value : value) : option Z :=
  if truthy value
  then hash str_hash int_hash none_hash value
  else Some (str_hash EmptyString).

End HashOrEmpty.

(** A keyword value that [_get_kwargs_hash] can digest: an object with a
    hash, or a mapping all of whose values can be digested. *)
Fixpoint digestible (v : value) : bool :=
  match v with
  | VList _ => false
  | VDict items =>
      (fix all (l : list (string * value)) : bool :=
         match l with
         | [] => true
         | (_, x) :: rest => digestible x && all rest
         end) items
  | _ => true
  end.

(** An object that the builtin [hash] accepts. *)
Definition hashable (v : value) : bool :=
  match v with
  | VList _ | VDict _ => false
  | _ => true
  end.

(** The pages that reach the loop of [get_pages]: for each drained future
    that completed with a page text, its URL and the text, in the order of
    completion. *)
Definition fetched_pages (robber : nat -> string -> fetched)
  (urls : list string) (completed : list nat) : list (string * string) :=
  omap (λ i, match submit_all robber urls !! i with
             | Some (Fetched page_text, url) => Some (url, page_text)
             | _ => None
             end) completed.

(** The pages of a sequence whose text differs from the text of the page
    just before ([last] before the first one). *)
Fixpoint drop_repeats (last : option string) (pages : list (string * string))
  : list (string * string) :=
  match pages with
  | [] => []
  | (url, page_text) :: rest =>
      if bool_decide (Some page_text = last)
      then drop_repeats last rest
      else (url, page_text) :: drop_repeats (Some page_text) rest
  end.

(** The range of a signed 64-bit hash value, and hash functions that stay
    in it. *)
Definition in_hash_range (h : Z) : Prop := - 2 ^ 63 <= h < 2 ^ 63.
Definition wrap64 (h : Z) : Z := (h + 2 ^ 63) mod 2 ^ 64 - 2 ^ 63.
Definition wrapped_str_hash (s : string) : Z := wrap64 (demo_str_hash s).
Definition wrapped_int_hash (n : Z) : Z := wrap64 n.

(** A transport that answers every call with the same page text. *)
Definition constant_robber (i : nat) (url : string) : fetched := Fetched "SAME".

(** * Theorems *)

(** ** The identity hash *)

Section IdentityTheory.

Variable str_hash : string -> Z.
Variable int_hash : Z -> Z.
Variable none_hash : Z.

Local Abbreviation hash := (hash str_hash int_hash none_hash).
Local Abbreviation mapping_hash := (mapping_hash str_hash int_hash none_hash).
Local Abbreviation _get_kwargs_hash := (_get_kwargs_hash str_hash int_hash none_hash).
Local Abbreviation reduce_xor := (reduce_xor str_hash int_hash none_hash).
Local Abbreviation __hash__ := (__hash__ str_hash int_hash none_hash).
Local Abbreviation entry_hash := (entry_hash str_hash int_hash none_hash).
Local Abbreviation empty_hash := (str_hash EmptyString).

Lemma lxor_swap a x y : Z.lxor (Z.lxor a x) y = Z.lxor (Z.lxor a y) x.
Proof. rewrite !Z.lxor_assoc. f_equal. apply Z.lxor_comm. Qed.

Lemma xor_all_cons init o hs :
  xor_all init (o :: hs) = h ← o; a ← xor_all init hs; Some (Z.lxor a h).
Proof. reflexivity. Qed.

Lemma xor_all_shift init h hs :
  xor_all (Z.lxor init h) hs = (λ a, Z.lxor a h) <$> xor_all init hs.
Proof.
  induction hs as [|o hs IH]; [reflexivity|].
  rewrite !xor_all_cons, IH.
  destruct o as [x|]; [|reflexivity]; simpl.
  destruct (xor_all init hs) as [a|]; [|reflexivity]; simpl.
  f_equal. apply lxor_swap.
Qed.

Lemma xor_all_Permutation init hs1 hs2 :
  hs1 ≡ₚ hs2 -> xor_all init hs1 = xor_all init hs2.
Proof.
  induction 1 as [|o hs1 hs2 _ IH|o1 o2 hs|hs1 hs2 hs3 _ IH1 _ IH2].
  - reflexivity.
  - rewrite !xor_all_cons, IH. reflexivity.
  - rewrite !xor_all_cons.
    destruct o1 as [x|], o2 as [y|], (xor_all init hs) as [a|]; simpl; try reflexivity.
    f_equal. apply lxor_swap.
  - congruence.
Qed.

(** The accumulating loop of [_get_kwargs_hash] XORs the contributions of
    the entries into [hash('')]. *)
Lemma get_kwargs_hash_xor_all kwargs :
  _get_kwargs_hash kwargs = xor_all empty_hash (entry_hash <$> kwargs).
Proof.
  change (_get_kwargs_hash kwargs) with (mapping_hash (VDict kwargs)). simpl.
  generalize empty_hash as acc.
  induction kwargs as [|[key value] rest IH]; intros acc; [reflexivity|].
  rewrite fmap_cons, xor_all_cons.
  change (entry_hash (key, value)) with
    (if is_MutableMapping value then mapping_hash value
     else h ← hash value; Some (Z.lxor (str_hash key) h)).
  destruct (if is_MutableMapping value then mapping_hash value
            else h ← hash value; Some (Z.lxor (str_hash key) h)) as [h|];
    [|reflexivity].
  rewrite IH, xor_all_shift. simpl.
  destruct (xor_all acc (entry_hash <$> rest)); reflexivity.
Qed.

Lemma reduce_xor_xor_all acc rest :
  reduce_xor acc rest = xor_all acc (hash <$> rest).
Proof.
  revert acc. induction rest as [|x rest IH]; intros acc; [reflexivity|].
  rewrite fmap_cons, xor_all_cons. simpl.
  destruct (hash x) as [h|]; [|reflexivity]. simpl.
  rewrite IH, xor_all_shift.
  destruct (xor_all acc (hash <$> rest)); reflexivity.
Qed.

(** The hash of the positional arguments, as [__hash__] computes it. *)
Lemma args_hash_xor_all x rest :
  (h ← hash x; reduce_xor h rest) = xor_all 0 (hash <$> x :: rest).
Proof.
  rewrite fmap_cons, xor_all_cons.
  destruct (hash x) as [h|]; [|reflexivity]. simpl.
  rewrite reduce_xor_xor_all.
  rewrite <- (Z.lxor_0_l h) at 1. rewrite xor_all_shift.
  destruct (xor_all 0 (hash <$> rest)); reflexivity.
Qed.

Lemma same_items_entry_hash :
  (forall v1 v2, same_value v1 v2 ->
     forall key, entry_hash (key, v1) = entry_hash (key, v2)) /\
  (forall d1 d2, same_items d1 d2 ->
     forall init, xor_all init (entry_hash <$> d1) = xor_all init (entry_hash <$> d2)).
Proof.
  apply same_mutind.
  - reflexivity.
  - intros d1 d2 _ IH key.
    change (_get_kwargs_hash d1 = _get_kwargs_hash d2).
    rewrite !get_kwargs_hash_xor_all. apply IH.
  - reflexivity.
  - intros key v1 v2 d1 d2 _ IHv _ IHd init.
    rewrite !fmap_cons, !xor_all_cons, (IHv key), IHd. reflexivity.
  - intros e1 e2 d init. apply xor_all_Permutation.
    rewrite !fmap_cons. apply Permutation_swap.
  - intros d1 d2 d3 _ IH1 _ IH2 init. rewrite IH1. apply IH2.
Qed.

(** Listing the same entries in another order gives the same mapping. *)
Lemma Permutation_same_items (d1 d2 : list (string * value)) :
  d1 ≡ₚ d2 -> same_items d1 d2.
Proof.
  induction 1 as [|[key v] d1 d2 _ IH|e1 e2 d|d1 d2 d3 _ IH1 _ IH2].
  - apply same_items_nil.
  - apply same_items_skip; [apply same_value_refl|exact IH].
  - apply same_items_swap.
  - exact (same_items_trans _ _ _ IH1 IH2).
Qed.

Lemma get_kwargs_hash_same_items d1 d2 :
  same_items d1 d2 -> _get_kwargs_hash d1 = _get_kwargs_hash d2.
Proof.
  intros H. rewrite !get_kwargs_hash_xor_all.
  apply (proj2 same_items_entry_hash), H.
Qed.

Lemma hash_unfold self :
  __hash__ self =
  kwargs_hash ← _get_kwargs_hash (kwargs self);
  args_hash ← match args self with
              | [] => Some empty_hash
              | x :: rest => h ← hash x; reduce_xor h rest
              end;
  Some (Z.lxor kwargs_hash args_hash).
Proof. reflexivity. Qed.

(** C1: two actions whose positional arguments are the same multiset and
    whose keyword mappings hold the same entries, nested mappings compared
    recursively, in whatever order terms and entries were given, have the
    same [__hash__] (the same number, or [TypeError] for both). *)
Theorem hash_order_independent (a1 a2 : Action) :
  args a1 ≡ₚ args a2 ->
  same_items (kwargs a1) (kwargs a2) ->
  __hash__ a1 = __hash__ a2.
Proof.
  intros Hargs Hkw. rewrite !hash_unfold.
  rewrite (get_kwargs_hash_same_items _ _ Hkw).
  destruct (_get_kwargs_hash (kwargs a2)) as [kh|]; [|reflexivity]. simpl.
  destruct (args a1) as [|x1 r1], (args a2) as [|x2 r2].
  - reflexivity.
  - apply Permutation_nil_cons in Hargs. contradiction.
  - symmetry in Hargs. apply Permutation_nil_cons in Hargs. contradiction.
  - rewrite !args_hash_xor_all.
    rewrite (xor_all_Permutation 0 (hash <$> x1 :: r1) (hash <$> x2 :: r2));
      [reflexivity|].
    apply fmap_Permutation, Hargs.
Qed.

(** C3, as the code has it: the attribute-mapping hash starts from
    [hash('')] and XORs in one contribution per pair.  A pair whose value is
    not a mapping contributes [hash(key) ^ hash(value)]; a pair whose value
    is a nested mapping contributes the hash of the nested mapping alone,
    computed by the same procedure: its key is not mixed in.  An unhashable
    value makes the whole computation raise. *)
Theorem kwargs_hash_contributions (kwargs : list (string * value)) :
  _get_kwargs_hash kwargs = xor_all empty_hash (entry_hash <$> kwargs) /\
  (forall key items, entry_hash (key, VDict items) = _get_kwargs_hash items) /\
  (forall key s, entry_hash (key, VStr s) = Some (Z.lxor (str_hash key) (str_hash s))) /\
  (forall key n, entry_hash (key, VInt n) = Some (Z.lxor (str_hash key) (int_hash n))) /\
  (forall key, entry_hash (key, VNone) = Some (Z.lxor (str_hash key) none_hash)) /\
  (forall key xs, entry_hash (key, VList xs) = None).
Proof.
  split; [apply get_kwargs_hash_xor_all|].
  repeat split; reflexivity.
Qed.

(** On a mapping without nested mappings the code and the specification's
    wording agree. *)
Lemma flat_kwargs_hash_meets_spec (kwargs : list (string * value)) :
  Forall (λ entry, is_MutableMapping entry.2 = false) kwargs ->
  _get_kwargs_hash kwargs = spec_attributes_hash str_hash int_hash none_hash kwargs.
Proof.
  intros Hflat.
  change (mapping_hash (VDict kwargs) =
          spec_inner_hash str_hash int_hash none_hash (VDict kwargs)).
  simpl. generalize empty_hash as acc.
  induction Hflat as [|[key value] rest Hv _ IH]; intros acc; [reflexivity|].
  simpl in Hv. rewrite Hv.
  destruct value; try discriminate; simpl; try apply IH; reflexivity.
Qed.

(** C8: an action without positional arguments and without keyword
    arguments hashes to [hash('') ^ hash('')], which is 0; the computation
    does not raise. *)
Theorem empty_action_hash (self : Action) :
  args self = [] -> kwargs self = [] ->
  __hash__ self = Some (Z.lxor empty_hash empty_hash) /\ __hash__ self = Some 0.
Proof.
  intros Ha Hk. rewrite hash_unfold, Ha, Hk. simpl.
  rewrite Z.lxor_nilpotent. split; reflexivity.
Qed.

Lemma kwargs_hash_middle pre entry post :
  _get_kwargs_hash (pre ++ entry :: post) =
  h ← entry_hash entry; a ← _get_kwargs_hash (pre ++ post); Some (Z.lxor a h).
Proof.
  rewrite !get_kwargs_hash_xor_all, <- xor_all_cons, <- fmap_cons.
  apply xor_all_Permutation, fmap_Permutation.
  symmetry. apply Permutation_middle.
Qed.

Lemma entry_hash_hashable key v h :
  hash v = Some h -> entry_hash (key, v) = Some (Z.lxor (str_hash key) h).
Proof. destruct v; simpl; intros H; inversion H; reflexivity. Qed.

Lemma lxor_fixed a e : Z.lxor a e = a <-> e = 0.
Proof.
  split; [|intros ->; apply Z.lxor_0_r].
  intros H. apply (f_equal (Z.lxor a)) in H.
  rewrite <- Z.lxor_assoc, Z.lxor_nilpotent, Z.lxor_0_l in H. exact H.
Qed.

(** C10, as the code has it: [ThreadAction.__init__] leaves an explicit
    [max_workers] keyword in the stored kwargs; when its value is hashable,
    the hash of the action is the hash of the action built without the
    keyword XOR [hash('max_workers') ^ hash(value)], so the two hashes
    differ exactly when [hash(value)] differs from [hash('max_workers')]. *)
Theorem max_workers_kwarg_in_hash
  (a : list value) (pre post : list (string * value)) (v : value) (h hw : Z) :
  hash v = Some h ->
  __hash__ (action (ThreadAction_init a (pre ++ post))) = Some hw ->
  kwargs (action (ThreadAction_init a (pre ++ ("max_workers", v) :: post)))
    = pre ++ ("max_workers", v) :: post /\
  __hash__ (action (ThreadAction_init a (pre ++ ("max_workers", v) :: post)))
    = Some (Z.lxor hw (Z.lxor (str_hash "max_workers") h)) /\
  (__hash__ (action (ThreadAction_init a (pre ++ ("max_workers", v) :: post)))
     <> __hash__ (action (ThreadAction_init a (pre ++ post)))
   <-> h <> str_hash "max_workers").
Proof.
  intros Hv Hw.
  assert (Hwith : __hash__ (action (ThreadAction_init a (pre ++ ("max_workers", v) :: post)))
                  = Some (Z.lxor hw (Z.lxor (str_hash "max_workers") h))).
  { revert Hw. rewrite !hash_unfold. simpl.
    rewrite kwargs_hash_middle, (entry_hash_hashable _ _ _ Hv). simpl.
    destruct (_get_kwargs_hash (pre ++ post)) as [kh|]; [|discriminate]. simpl.
    destruct (match a with
              | [] => Some empty_hash
              | x :: rest => h0 ← hash x; reduce_xor h0 rest
              end) as [ah|]; [|discriminate]. simpl.
    intros [= <-]. f_equal. apply lxor_swap. }
  split; [reflexivity|]. split; [exact Hwith|].
  rewrite Hwith, Hw. split.
  - intros Hne ->. apply Hne. f_equal. apply lxor_fixed, Z.lxor_nilpotent.
  - intros Hne [= Heq]. apply lxor_fixed, Z.lxor_eq in Heq. congruence.
Qed.

End IdentityTheory.

Lemma hash_order_independent_witness :
  __hash__ demo_str_hash demo_int_hash demo_none_hash
    (mkAction [VStr "a"; VStr "div"]
       [("attrs", VDict [("class", VStr "x"); ("id", VStr "y")]); ("limit", VInt 2)]
       false)
  = __hash__ demo_str_hash demo_int_hash demo_none_hash
    (mkAction [VStr "div"; VStr "a"]
       [("limit", VInt 2); ("attrs", VDict [("id", VStr "y"); ("class", VStr "x")])]
       true).
Proof.
  apply hash_order_independent; simpl.
  - apply Permutation_swap.
  - eapply same_items_trans; [apply same_items_swap|].
    apply same_items_skip; [apply same_value_refl|].
    apply same_items_skip; [|apply same_items_nil].
    apply same_value_dict, same_items_swap.
Defined.

(** The claim C3 as the specification words it fails on a nested mapping:
    for [{'attrs': {'class': 'x'}}] the code leaves [hash('attrs')] out. *)
Lemma nested_key_not_hashed :
  _get_kwargs_hash demo_str_hash demo_int_hash demo_none_hash
    [("attrs", VDict [("class", VStr "x")])]
  <> spec_attributes_hash demo_str_hash demo_int_hash demo_none_hash
    [("attrs", VDict [("class", VStr "x")])].
Proof. vm_compute. discriminate. Qed.

Lemma empty_action_hash_witness :
  __hash__ demo_str_hash demo_int_hash demo_none_hash (Action_init [] [])
    = Some (Z.lxor (demo_str_hash EmptyString) (demo_str_hash EmptyString)) /\
  __hash__ demo_str_hash demo_int_hash demo_none_hash (Action_init [] []) = Some 0.
Proof. apply empty_action_hash; reflexivity. Defined.

(** The claim C10 as stated fails when the value hashes like the key:
    [ThreadAction('a', max_workers='max_workers')] and [ThreadAction('a')]
    have the same hash. *)
Lemma max_workers_kwarg_cancels :
  __hash__ demo_str_hash demo_int_hash demo_none_hash
    (action (ThreadAction_init [VStr "a"] [("max_workers", VStr "max_workers")]))
  = __hash__ demo_str_hash demo_int_hash demo_none_hash
    (action (ThreadAction_init [VStr "a"] [])).
Proof. vm_compute. reflexivity. Qed.

Lemma max_workers_kwarg_in_hash_witness :
  __hash__ demo_str_hash demo_int_hash demo_none_hash
    (action (ThreadAction_init [VStr "a"] [("class", VStr "x"); ("max_workers", VInt 8)]))
  <> __hash__ demo_str_hash demo_int_hash demo_none_hash
    (action (ThreadAction_init [VStr "a"] [("class", VStr "x")])).
Proof.
  apply (max_workers_kwarg_in_hash demo_str_hash demo_int_hash demo_none_hash
           [VStr "a"] [("class", VStr "x")] [] (VInt 8) 8
           (Z.lxor (Z.lxor (demo_str_hash "class") (demo_str_hash "x")) (demo_str_hash "a"))).
  - reflexivity.
  - vm_compute. reflexivity.
  - vm_compute. discriminate.
Defined.

(** ** CheckPageRepeat *)

Lemma call_unfold (self : CheckPageRepeat) (page_text : string) :
  __call__ self page_text =
  if bool_decide (Some page_text = __last_page_text self)
  then (true, {| __last_page_text := __last_page_text self;
                 __repeat_page := __repeat_page self + 1;
                 __check_break := __check_break self;
                 max_page_repeat := max_page_repeat self |})
  else (false, {| __last_page_text := Some page_text;
                  __repeat_page := 0;
                  __check_break := __check_break self;
                  max_page_repeat := max_page_repeat self |}).
Proof.
  unfold __call__.
  destruct (bool_decide (Some page_text = __last_page_text self)); cbn [__repeat_page].
  - rewrite Z.gtb_ltb, Z.ltb_irrefl. reflexivity.
  - reflexivity.
Qed.

(** The test [self.__repeat_page > self.__repeat_page] never holds, so a
    call leaves [check_break] and [max_page_repeat] as they were. *)
Lemma call_check_break (self : CheckPageRepeat) (page_text : string) :
  check_break (__call__ self page_text).2 = check_break self.
Proof. rewrite call_unfold. case_bool_decide; reflexivity. Qed.

Lemma call_max_page_repeat (self : CheckPageRepeat) (page_text : string) :
  max_page_repeat (__call__ self page_text).2 = max_page_repeat self.
Proof. rewrite call_unfold. case_bool_decide; reflexivity. Qed.

Lemma observe_all_check_break (self : CheckPageRepeat) (pages : list string) :
  check_break (observe_all self pages) = check_break self.
Proof.
  revert self. induction pages as [|page_text pages IH]; intros self; [reflexivity|].
  change (observe_all self (page_text :: pages))
    with (observe_all (__call__ self page_text).2 pages).
  rewrite IH. apply call_check_break.
Qed.

Lemma observe_all_max_page_repeat (self : CheckPageRepeat) (pages : list string) :
  max_page_repeat (observe_all self pages) = max_page_repeat self.
Proof.
  revert self. induction pages as [|page_text pages IH]; intros self; [reflexivity|].
  change (observe_all self (page_text :: pages))
    with (observe_all (__call__ self page_text).2 pages).
  rewrite IH. apply call_max_page_repeat.
Qed.

(** C6: a call with the stored page text adds one to the repeat count,
    returns [True] and keeps the stored text; a call with any other text
    sets the count to zero, stores the text and returns [False]. *)
Theorem call_policy (self : CheckPageRepeat) (page_text : string) :
  (__last_page_text self = Some page_text /\
   (__call__ self page_text).1 = true /\
   __repeat_page (__call__ self page_text).2 = __repeat_page self + 1 /\
   __last_page_text (__call__ self page_text).2 = __last_page_text self)
  \/
  (__last_page_text self <> Some page_text /\
   (__call__ self page_text).1 = false /\
   __repeat_page (__call__ self page_text).2 = 0 /\
   __last_page_text (__call__ self page_text).2 = Some page_text).
Proof.
  rewrite call_unfold. case_bool_decide as Heq; [left|right]; simpl.
  - auto.
  - split; [congruence|auto].
Qed.

(** C2, on the code: the repeat count of a guard with threshold 3 reaches 4
    on the fifth of five equal page texts, and [check_break] is still
    [False]; it is [False] after every sequence of calls on a new guard. *)
Theorem check_break_never_raised :
  __repeat_page (observe_all (CheckPageRepeat_init 3) ["A"; "A"; "A"; "A"; "A"]) = 4 /\
  max_page_repeat (observe_all (CheckPageRepeat_init 3) ["A"; "A"; "A"; "A"; "A"]) = 3 /\
  check_break (observe_all (CheckPageRepeat_init 3) ["A"; "A"; "A"; "A"; "A"]) = false /\
  check_break (observe_all (CheckPageRepeat_init 3) ["A"; "A"; "A"; "A"; "B"]) = false /\
  (forall threshold pages,
     check_break (observe_all (CheckPageRepeat_init threshold) pages) = false).
Proof.
  repeat split; try (vm_compute; reflexivity).
  intros threshold pages. apply observe_all_check_break.
Qed.

(** C9: once [check_break] is [True] it is [True] after every further
    sequence of calls; and on a new guard it is [False] whenever the repeat
    count stayed within the threshold after every call so far, that is, it
    can only be [True] if the count exceeded the threshold at some call. *)
Theorem check_break_monotone (threshold : Z) (pages : list string) :
  (forall self later,
     check_break self = true -> check_break (observe_all self later) = true) /\
  ((forall n, (n <= length pages)%nat ->
      __repeat_page (observe_all (CheckPageRepeat_init threshold) (take n pages))
        <= threshold) ->
   check_break (observe_all (CheckPageRepeat_init threshold) pages) = false).
Proof.
  split.
  - intros self later H. rewrite observe_all_check_break. exact H.
  - intros _. apply observe_all_check_break.
Qed.

Lemma check_break_monotone_witness :
  check_break
    (observe_all (mkCheckPageRepeat (Some "A") 4 true 3) ["A"; "B"; "B"]) = true /\
  check_break (observe_all (CheckPageRepeat_init 3) ["A"; "B"; "A"; "B"]) = false.
Proof.
  split.
  - apply (proj1 (check_break_monotone 3 [])). reflexivity.
  - apply (proj2 (check_break_monotone 3 ["A"; "B"; "A"; "B"])).
    intros n Hn.
    do 5 (destruct n as [|n]; [vm_compute; discriminate|]).
    simpl in Hn. lia.
Defined.

(** ** ThreadAction *)

Lemma dict_get_absent (d : list (string * value)) (key : string) :
  dict_has d key = false -> dict_get d key = VNone.
Proof.
  unfold dict_has. rewrite bool_decide_eq_false.
  induction d as [|[k v] rest IH]; [reflexivity|].
  simpl. intros Hnot. case_bool_decide as Hk.
  - exfalso. apply Hnot. subst. left.
  - apply IH. intros Hin. apply Hnot. right. exact Hin.
Qed.

Section GetPagesTheory.

Variable tag : Type.
Variable BeautifulSoup : string -> tag.
Variable robber : nat -> string -> fetched.

Local Abbreviation submit_all := (submit_all robber).
Local Abbreviation drain := (drain tag BeautifulSoup).
Local Abbreviation get_pages := (get_pages tag BeautifulSoup robber).

Lemma submit_all_lookup (urls : list string) (i : nat) :
  submit_all urls !! i = (λ url, (robber i url, url)) <$> urls !! i.
Proof. apply list_lookup_imap. Qed.


Lemma lookup_positions_from {A} (pre l : list A) :
  omap (λ i, (pre ++ l) !! i) (seq (length pre) (length l)) = l.
Proof.
  revert pre. induction l as [|x l IH]; intros pre; [reflexivity|].
  simpl. rewrite list_lookup_middle by reflexivity. f_equal.
  specialize (IH (pre ++ [x])).
  rewrite <- app_assoc, length_app, Nat.add_comm in IH. exact IH.
Qed.

Lemma lookup_all_positions {A} (l : list A) :
  omap (λ i, l !! i) (seq 0 (length l)) = l.
Proof. apply (lookup_positions_from [] l). Qed.

(** The URLs of the yielded pairs are, in order, URLs of some of the
    drained futures. *)
Lemma drain_sublist (fs : list (fetched * string)) (g : CheckPageRepeat)
  (completed : list nat) :
  (drain fs g completed).1.*1 `sublist_of` omap (λ i, snd <$> fs !! i) completed.
Proof.
  revert g. induction completed as [|future later IH]; intros g; [constructor|].
  simpl. destruct (fs !! future) as [[[page_text|e] url]|]; simpl.
  - destruct (__call__ g page_text) as [[] g']; simpl.
    + destruct (check_break g'); [apply sublist_nil_l|].
      apply sublist_cons, IH.
    + specialize (IH g'). destruct (drain fs g' later) as [rest e'].
      simpl in *. apply sublist_skip, IH.
  - apply sublist_nil_l.
  - apply IH.
Qed.

Lemma completed_urls (urls : list string) (completed : list nat) :
  completed ≡ₚ seq 0 (length urls) ->
  omap (λ i, snd <$> submit_all urls !! i) completed ≡ₚ urls.
Proof.
  intros Hperm. rewrite Hperm.
  rewrite (list_omap_ext _ (λ i, urls !! i) _ (seq 0 (length urls))).
  - rewrite lookup_all_positions. reflexivity.
  - apply Forall_Forall2_diag, Forall_forall. intros i _.
    rewrite submit_all_lookup. destruct (urls !! i); reflexivity.
Qed.

Lemma get_pages_unfold (self : ThreadAction) (urls : list string)
  (completed : list nat) :
  get_pages self urls completed =
  match ThreadPoolExecutor (max_workers self) with
  | inl e => mkPages [] [] (Raised e)
  | inr _ =>
      mkPages (drain (submit_all urls) (CheckPageRepeat_init 3) completed).1
        (submit_all urls).*2
        (drain (submit_all urls) (CheckPageRepeat_init 3) completed).2
  end.
Proof.
  unfold get_pages. destruct (ThreadPoolExecutor (max_workers self)); [reflexivity|].
  destruct (drain _ _ _); reflexivity.
Qed.

(** C4, as the code has it: the URLs of the yielded pairs form a
    sub-multiset of the input URLs (one task per position of the list, and
    a task yields at most one pair); so every yielded URL is an input URL,
    there are at most [len(urls)] pairs, and no URL is yielded twice when
    the input has no duplicates. *)
Theorem get_pages_urls (self : ThreadAction) (urls : list string)
  (completed : list nat) :
  completed ≡ₚ seq 0 (length urls) ->
  (yielded (get_pages self urls completed)).*1 ⊆+ urls /\
  Forall (λ url, url ∈ urls) (yielded (get_pages self urls completed)).*1 /\
  (length (yielded (get_pages self urls completed)) <= length urls)%nat /\
  (NoDup urls -> NoDup (yielded (get_pages self urls completed)).*1).
Proof.
  intros Hperm.
  assert (Hsub : (yielded (get_pages self urls completed)).*1 ⊆+ urls).
  { rewrite get_pages_unfold.
    destruct (ThreadPoolExecutor (max_workers self)) as [e|[]]; simpl.
    - apply submseteq_nil_l.
    - transitivity (omap (λ i, snd <$> submit_all urls !! i) completed).
      + apply sublist_submseteq, drain_sublist.
      + apply Permutation_submseteq, completed_urls, Hperm. }
  split; [exact Hsub|]. split; [|split].
  - apply Forall_forall. intros url Hin. exact (elem_of_submseteq _ _ _ Hin Hsub).
  - rewrite <- (length_fmap fst). apply submseteq_length, Hsub.
  - intros Hnodup. apply submseteq_Permutation in Hsub as [k Hk].
    rewrite Hk in Hnodup. apply NoDup_app in Hnodup. tauto.
Qed.

(** While [check_break] is [False], the loop consumes the futures that
    completed with a page text and raises at the first failed one. *)
Lemma drain_until_failure (fs : list (fetched * string)) (g : CheckPageRepeat)
  (before : list nat) (j : nat) (later : list nat) (e : exn) (url : string) :
  check_break g = false ->
  Forall (λ k, exists page_text u, fs !! k = Some (Fetched page_text, u)) before ->
  fs !! j = Some (Failed e, url) ->
  drain fs g (before ++ j :: later) = ((drain fs g before).1, Raised e).
Proof.
  intros Hg Hbefore Hj. revert g Hg.
  induction Hbefore as [|k before (page_text & u & Hk) _ IH]; intros g Hg; simpl.
  - rewrite Hj. reflexivity.
  - rewrite Hk.
    pose proof (call_check_break g page_text) as Hg'. rewrite Hg in Hg'.
    destruct (__call__ g page_text) as [[] g']; simpl in *.
    + rewrite Hg'. apply IH, Hg'.
    + rewrite (IH g' Hg'). destruct (drain fs g' before). reflexivity.
Qed.

Lemma first_failure (fs : list (fetched * string)) (completed : list nat)
  (i : nat) (e : exn) (url : string) :
  i ∈ completed -> fs !! i = Some (Failed e, url) ->
  exists before j later e' url',
    completed = before ++ j :: later /\
    fs !! j = Some (Failed e', url') /\
    Forall (λ k, forall e0 u, fs !! k <> Some (Failed e0, u)) before.
Proof.
  intros Hin Hi. induction completed as [|k completed IH]; [inversion Hin|].
  destruct (fs !! k) as [[[page_text|e0] u]|] eqn:Hk.
  2: { exists [], k, completed, e0, u. auto. }
  all: assert (Hin' : i ∈ completed)
         by (apply elem_of_cons in Hin as [->|Hin]; [congruence|exact Hin]).
  all: destruct (IH Hin') as (before & j & later & e' & url' & -> & Hj & Hb).
  all: exists (k :: before), j, later, e', url'.
  all: repeat split; [exact Hj|].
  all: constructor; [intros e1 u1; congruence|exact Hb].
Qed.

(** C7: when the call of some task raises, and the pool could be built,
    the generator ends by raising the exception of the first failed future
    in completion order; what it yielded before is what the loop yields on
    the futures drained before that one, all of which had completed with a
    page text. *)
Theorem transport_failure_surfaces (self : ThreadAction) (urls : list string)
  (completed : list nat) (i : nat) (url : string) (e : exn) :
  ThreadPoolExecutor (max_workers self) = inr () ->
  completed ≡ₚ seq 0 (length urls) ->
  urls !! i = Some url ->
  robber i url = Failed e ->
  exists before j later url' e',
    completed = before ++ j :: later /\
    Forall (λ k, exists u page_text,
              urls !! k = Some u /\ robber k u = Fetched page_text) before /\
    urls !! j = Some url' /\
    robber j url' = Failed e' /\
    end_of_pages (get_pages self urls completed) = Raised e' /\
    yielded (get_pages self urls completed) = yielded (get_pages self urls before).
Proof.
  intros Hpool Hperm Hurl Hfail.
  assert (Hin : i ∈ completed).
  { rewrite Hperm, elem_of_seq. apply lookup_lt_Some in Hurl. lia. }
  assert (Hi : submit_all urls !! i = Some (Failed e, url)).
  { rewrite submit_all_lookup, Hurl. simpl. rewrite Hfail. reflexivity. }
  destruct (first_failure _ _ _ _ _ Hin Hi)
    as (before & j & later & e' & url' & Heq & Hj & Hb).
  exists before, j, later, url', e'.
  rewrite submit_all_lookup in Hj.
  destruct (urls !! j) as [uj|] eqn:Huj; [|discriminate].
  simpl in Hj. injection Hj as Hrj ->.
  assert (Hfetched : Forall (λ k, exists u page_text,
            urls !! k = Some u /\ robber k u = Fetched page_text) before).
  { apply Forall_forall. intros k Hk.
    assert (Hk' : k ∈ completed) by (rewrite Heq, elem_of_app; auto).
    rewrite Hperm, elem_of_seq in Hk'.
    destruct (lookup_lt_is_Some_2 urls k) as [u Hu]; [lia|].
    rewrite Forall_forall in Hb. specialize (Hb k Hk).
    rewrite submit_all_lookup, Hu in Hb. simpl in Hb.
    exists u. destruct (robber k u) as [page_text|e0]; [eauto|].
    exfalso. exact (Hb e0 u eq_refl). }
  repeat split; [exact Heq|exact Hfetched|exact Hrj|..].
  all: rewrite !get_pages_unfold, Hpool, Heq.
  all: rewrite (drain_until_failure _ _ before j later e' url'); [reflexivity|..].
  all: try reflexivity.
  all: try (rewrite submit_all_lookup, Huj; simpl; rewrite Hrj; reflexivity).
  all: eapply Forall_impl; [exact Hfetched|].
  all: intros k (u & page_text & Hu & Hr); exists page_text, u.
  all: rewrite submit_all_lookup, Hu; simpl; rewrite Hr; reflexivity.
Qed.

(** C5, as the code has it: a negative [max_workers] makes [get_pages] raise
    [ValueError] when the pool is built, before any call is submitted; a
    [max_workers] of 0 counts as not given; when it is not given the bound
    is 5. *)
Theorem max_workers_validation (a : list value) (kw : list (string * value))
  (urls : list string) (completed : list nat) :
  (forall n, n < 0 -> dict_get kw "max_workers" = VInt n ->
     get_pages (ThreadAction_init a kw) urls completed = mkPages [] [] (Raised ValueError)) /\
  (dict_get kw "max_workers" = VInt 0 ->
     max_workers (ThreadAction_init a kw) = VInt 5) /\
  (dict_has kw "max_workers" = false ->
     max_workers (ThreadAction_init a kw) = VInt 5).
Proof.
  repeat split.
  - intros n Hn Hget. rewrite get_pages_unfold. simpl. rewrite Hget.
    unfold py_or. simpl.
    destruct (Z.eqb_spec n 0) as [->|_]; [lia|]. simpl.
    destruct (Z.leb_spec n 0); [reflexivity|lia].
  - intros Hget. simpl. rewrite Hget. reflexivity.
  - intros Habsent. simpl. rewrite (dict_get_absent _ _ Habsent). reflexivity.
Qed.

End GetPagesTheory.

Lemma get_pages_urls_witness :
  (yielded (get_pages string id echo_robber (ThreadAction_init [VStr "a"] [])
              ["u"; "v"; "w"] [2; 0; 1]%nat)).*1 ⊆+ ["u"; "v"; "w"] /\
  Forall (λ url, url ∈ ["u"; "v"; "w"])
    (yielded (get_pages string id echo_robber (ThreadAction_init [VStr "a"] [])
                ["u"; "v"; "w"] [2; 0; 1]%nat)).*1 /\
  (length (yielded (get_pages string id echo_robber (ThreadAction_init [VStr "a"] [])
                      ["u"; "v"; "w"] [2; 0; 1]%nat)) <= 3)%nat /\
  (NoDup ["u"; "v"; "w"] ->
   NoDup (yielded (get_pages string id echo_robber (ThreadAction_init [VStr "a"] [])
                     ["u"; "v"; "w"] [2; 0; 1]%nat)).*1).
Proof.
  apply (get_pages_urls string id echo_robber (ThreadAction_init [VStr "a"] [])
           ["u"; "v"; "w"] [2; 0; 1]%nat).
  simpl. solve_Permutation.
Defined.

(** The claim C4 as stated fails on a list with a duplicate:
    for [urls = ['u', 'v', 'u']] drained in submission order, the URL ['u']
    is yielded twice. *)
Lemma duplicate_url_yielded_twice :
  yielded (get_pages string id echo_robber (ThreadAction_init [] [])
             ["u"; "v"; "u"] [0; 1; 2]%nat)
    = [("u", "u"); ("v", "v"); ("u", "u")] /\
  ~ NoDup (yielded (get_pages string id echo_robber (ThreadAction_init [] [])
                      ["u"; "v"; "u"] [0; 1; 2]%nat)).*1.
Proof.
  split; [vm_compute; reflexivity|].
  vm_compute. intros H. apply NoDup_cons_1_1 in H. apply H.
  right. left.
Qed.

Lemma transport_failure_surfaces_witness :
  exists before j later url' e',
    [2; 1; 0]%nat = before ++ j :: later /\
    Forall (λ k, exists u page_text,
              ["a"; "b"; "c"] !! k = Some u /\
              failing_robber k u = Fetched page_text) before /\
    ["a"; "b"; "c"] !! j = Some url' /\
    failing_robber j url' = Failed e' /\
    end_of_pages (get_pages string id failing_robber (ThreadAction_init [] [])
                    ["a"; "b"; "c"] [2; 1; 0]%nat) = Raised e' /\
    yielded (get_pages string id failing_robber (ThreadAction_init [] [])
               ["a"; "b"; "c"] [2; 1; 0]%nat)
      = yielded (get_pages string id failing_robber (ThreadAction_init [] [])
                   ["a"; "b"; "c"] before).
Proof.
  apply (transport_failure_surfaces string id failing_robber
           (ThreadAction_init [] []) ["a"; "b"; "c"] [2; 1; 0]%nat
           1%nat "b" (TransportError "timeout")).
  - reflexivity.
  - simpl. solve_Permutation.
  - reflexivity.
  - reflexivity.
Defined.

(** The claim C5 as stated fails for [max_workers=0]: the bound is 5, the
    call is submitted and its page is yielded. *)
Lemma zero_max_workers_accepted :
  max_workers (ThreadAction_init [] [("max_workers", VInt 0)]) = VInt 5 /\
  get_pages string id echo_robber
    (ThreadAction_init [] [("max_workers", VInt 0)]) ["u"] [0%nat]
  = mkPages [("u", "u")] ["u"] Exhausted.
Proof. split; vm_compute; reflexivity. Qed.

Lemma max_workers_validation_witness :
  get_pages string id echo_robber
    (ThreadAction_init [] [("max_workers", VInt (-1))]) ["u"] [0%nat]
    = mkPages [] [] (Raised ValueError) /\
  max_workers (ThreadAction_init [] [("max_workers", VInt 0)]) = VInt 5 /\
  max_workers (ThreadAction_init [VStr "a"] [("class", VStr "x")]) = VInt 5.
Proof.
  split; [|split].
  - apply (proj1 (max_workers_validation string id echo_robber
                    [] [("max_workers", VInt (-1))] ["u"] [0%nat]) (-1));
      [lia|reflexivity].
  - apply (proj1 (proj2 (max_workers_validation string id echo_robber
                    [] [("max_workers", VInt 0)] [] []))). reflexivity.
  - apply (proj2 (proj2 (max_workers_validation string id echo_robber
                    [VStr "a"] [("class", VStr "x")] [] []))). reflexivity.
Defined.

(** * Further properties *)

(** ** The identity hash *)

Section IdentityFurther.

Variable str_hash : string -> Z.
Variable int_hash : Z -> Z.
Variable none_hash : Z.

Local Abbreviation hash := (hash str_hash int_hash none_hash).
Local Abbreviation mapping_hash := (mapping_hash str_hash int_hash none_hash).
Local Abbreviation _get_kwargs_hash := (_get_kwargs_hash str_hash int_hash none_hash).
Local Abbreviation reduce_xor := (reduce_xor str_hash int_hash none_hash).
Local Abbreviation __hash__ := (__hash__ str_hash int_hash none_hash).
Local Abbreviation entry_hash := (entry_hash str_hash int_hash none_hash).
Local Abbreviation _hash_or_empty := (_hash_or_empty str_hash int_hash none_hash).
Local Abbreviation empty_hash := (str_hash EmptyString).

Lemma xor_all_is_Some init hs :
  is_Some (xor_all init hs) <-> Forall is_Some hs.
Proof.
  induction hs as [|o hs IH].
  - split; [constructor|]. intros _. exists init. reflexivity.
  - rewrite xor_all_cons, Forall_cons, <- IH.
    destruct o as [h|]; simpl.
    + destruct (xor_all init hs) as [a|]; simpl.
      * split; [intros _; split; eexists; reflexivity|]. intros _. eexists. reflexivity.
      * split; [intros [x Hx]; discriminate|]. intros [_ [x Hx]]. discriminate.
    + split; [intros [x Hx]; discriminate|]. intros [[x Hx] _]. discriminate.
Qed.

Lemma hashable_is_Some v : is_Some (hash v) <-> hashable v = true.
Proof.
  destruct v; simpl; split; try reflexivity; try (intros _; eexists; reflexivity);
    try discriminate; intros [x Hx]; discriminate.
Qed.

Lemma entry_hash_digestible :
  forall v key, is_Some (entry_hash (key, v)) <-> digestible v = true.
Proof.
  fix IH 1. intros [s|n| |xs|items] key.
  - simpl. split; [reflexivity|]. intros _. eexists. reflexivity.
  - simpl. split; [reflexivity|]. intros _. eexists. reflexivity.
  - simpl. split; [reflexivity|]. intros _. eexists. reflexivity.
  - simpl. split; [intros [x Hx]; discriminate|discriminate].
  - change (entry_hash (key, VDict items)) with (_get_kwargs_hash items).
    rewrite (get_kwargs_hash_xor_all str_hash int_hash none_hash), xor_all_is_Some.
    simpl. induction items as [|[k x] rest IHrest].
    + split; [reflexivity|constructor].
    + rewrite fmap_cons, Forall_cons, andb_true_iff, IHrest. rewrite (IH x k).
      reflexivity.
Qed.

Ltac solve_lxor :=
  apply Z.bits_inj'; intros ? _; rewrite !Z.lxor_spec;
  repeat match goal with
         | |- context [Z.testbit ?a ?n] => destruct (Z.testbit a n)
         end; reflexivity.

(** The hash of the positional arguments: [hash('')] for the empty tuple,
    the XOR of the hashes otherwise. *)
Lemma args_hash_cases (a : list value) :
  match a with
  | [] => Some empty_hash
  | x :: rest => h ← hash x; reduce_xor h rest
  end = if bool_decide (a = []) then Some empty_hash else xor_all 0 (hash <$> a).
Proof.
  destruct a as [|x rest]; [reflexivity|].
  rewrite (args_hash_xor_all str_hash int_hash none_hash). reflexivity.
Qed.

(** X1: [__hash__] returns a number exactly when every positional argument
    is hashable and every keyword value is hashable or a mapping whose
    values, at every depth, are; otherwise it raises [TypeError]. *)
Theorem hash_succeeds_iff (self : Action) :
  is_Some (__hash__ self) <->
  Forall (λ x, hashable x = true) (args self) /\
  Forall (λ entry, digestible entry.2 = true) (kwargs self).
Proof.
  rewrite (hash_unfold str_hash int_hash none_hash), args_hash_cases.
  assert (Hk : is_Some (_get_kwargs_hash (kwargs self)) <->
               Forall (λ entry, digestible entry.2 = true) (kwargs self)).
  { rewrite (get_kwargs_hash_xor_all str_hash int_hash none_hash), xor_all_is_Some.
    rewrite Forall_fmap. apply Forall_proper; [|reflexivity].
    intros [key v]. apply entry_hash_digestible. }
  assert (Ha : is_Some (if bool_decide (args self = []) then Some empty_hash
                        else xor_all 0 (hash <$> args self)) <->
               Forall (λ x, hashable x = true) (args self)).
  { case_bool_decide as Hnil.
    - rewrite Hnil. split; [constructor|]. intros _. eexists. reflexivity.
    - rewrite xor_all_is_Some, Forall_fmap. apply Forall_proper; [|reflexivity].
      intros v. apply hashable_is_Some. }
  rewrite <- Hk, <- Ha.
  destruct (_get_kwargs_hash (kwargs self)) as [kh|]; simpl.
  - destruct (if bool_decide (args self = []) then Some empty_hash
              else xor_all 0 (hash <$> args self)) as [ah|]; simpl.
    + split; [intros _; split; eexists; reflexivity|]. intros _. eexists. reflexivity.
    + split; [intros [x Hx]; discriminate|]. intros [[x Hx] _]. discriminate.
  - split; [intros [x Hx]; discriminate|]. intros [_ [x Hx]]. discriminate.
Qed.

(** X2: a keyword whose value is a nested mapping is hashed as if the
    entries of the nested mapping stood in its place, XOR [hash('')]: the
    key itself and the nesting leave no other trace. *)
Theorem nested_mapping_spliced
  (pre : list (string * value)) (key : string) (d post : list (string * value)) :
  _get_kwargs_hash (pre ++ (key, VDict d) :: post) =
  Z.lxor empty_hash <$> _get_kwargs_hash (pre ++ d ++ post).
Proof.
  rewrite (kwargs_hash_middle str_hash int_hash none_hash).
  change (entry_hash (key, VDict d)) with (_get_kwargs_hash d).
  induction d as [|e d IH].
  - simpl. destruct (_get_kwargs_hash (pre ++ post)); simpl; [|reflexivity].
    f_equal. apply Z.lxor_comm.
  - simpl app.
    rewrite (kwargs_hash_middle str_hash int_hash none_hash pre e (d ++ post)).
    pose proof (kwargs_hash_middle str_hash int_hash none_hash [] e d) as He.
    change ([] ++ e :: d) with (e :: d) in He. change ([] ++ d) with d in He.
    rewrite He. clear He.
    destruct (entry_hash e) as [h|]; simpl; [|reflexivity].
    destruct (_get_kwargs_hash d) as [y|],
             (_get_kwargs_hash (pre ++ post)) as [a|],
             (_get_kwargs_hash (pre ++ d ++ post)) as [r|];
      simpl in *; try congruence.
    injection IH as IH. f_equal.
    rewrite <- !Z.lxor_assoc, IH. reflexivity.
Qed.

(** X3: a hashable positional argument given twice cancels out, as long as
    other positional arguments remain: [Action('a', 'a', 'b')] hashes like
    [Action('b')]. *)
Theorem duplicate_terms_cancel (a1 a2 : Action) (x : value) :
  hashable x = true ->
  args a2 <> [] ->
  args a1 ≡ₚ x :: x :: args a2 ->
  kwargs a1 = kwargs a2 ->
  __hash__ a1 = __hash__ a2.
Proof.
  intros Hx Hne Hperm Hkw.
  rewrite !(hash_unfold str_hash int_hash none_hash), !args_hash_cases, Hkw.
  rewrite (bool_decide_eq_false_2 _ Hne).
  rewrite bool_decide_eq_false_2.
  2: { intros Hnil. rewrite Hnil in Hperm. apply Permutation_nil_cons in Hperm. exact Hperm. }
  rewrite (xor_all_Permutation 0 (hash <$> args a1) (hash <$> x :: x :: args a2))
    by (apply fmap_Permutation, Hperm).
  rewrite !fmap_cons, !xor_all_cons.
  apply hashable_is_Some in Hx as [h ->]. simpl.
  destruct (xor_all 0 (hash <$> args a2)) as [a|]; simpl; [|reflexivity].
  replace (Z.lxor (Z.lxor a h) h) with a by solve_lxor. reflexivity.
Qed.

(** X4: exchanging the key and the string value of a keyword does not
    change the hash: [Action(id='class')] hashes like [Action(class='id')]. *)
Theorem key_value_exchange (a : list value) (pre post : list (string * value))
  (key s : string) (r1 r2 : bool) :
  __hash__ (mkAction a (pre ++ (key, VStr s) :: post) r1) =
  __hash__ (mkAction a (pre ++ (s, VStr key) :: post) r2).
Proof.
  rewrite !(hash_unfold str_hash int_hash none_hash). simpl.
  rewrite !(kwargs_hash_middle str_hash int_hash none_hash). simpl.
  rewrite (Z.lxor_comm (str_hash key)). reflexivity.
Qed.

(** X5: [_hash_or_empty] returns [hash('')] for every false object, also
    for the unhashable [[]] and [{}]; it raises exactly on a non-empty list
    or a non-empty dict. *)
Theorem hash_or_empty_cases (v : value) :
  (truthy v = false -> _hash_or_empty v = Some empty_hash) /\
  (_hash_or_empty v = None <->
   (exists x xs, v = VList (x :: xs)) \/ (exists e items, v = VDict (e :: items))).
Proof.
  split.
  - intros Hf. unfold _hash_or_empty. rewrite Hf. reflexivity.
  - unfold _hash_or_empty. destruct v as [s|n| |[|x xs]|[|e items]]; simpl.
    + destruct (negb _); split; try discriminate;
        intros [(? & ? & ?)|(? & ? & ?)]; discriminate.
    + destruct (negb _); split; try discriminate;
        intros [(? & ? & ?)|(? & ? & ?)]; discriminate.
    + split; [discriminate|]. intros [(? & ? & ?)|(? & ? & ?)]; discriminate.
    + split; [discriminate|]. intros [(? & ? & ?)|(? & ? & ?)]; discriminate.
    + split; [eauto|reflexivity].
    + split; [discriminate|]. intros [(? & ? & ?)|(? & ? & ?)]; discriminate.
    + split; [eauto|reflexivity].
Qed.

Lemma in_hash_range_shiftr (a : Z) :
  in_hash_range a <-> Z.shiftr a 63 = 0 \/ Z.shiftr a 63 = -1.
Proof.
  unfold in_hash_range. rewrite Z.shiftr_div_pow2 by lia.
  change (2 ^ 63) with 9223372036854775808.
  Z.div_mod_to_equations. lia.
Qed.

Lemma lxor_in_hash_range (a b : Z) :
  in_hash_range a -> in_hash_range b -> in_hash_range (Z.lxor a b).
Proof.
  rewrite !in_hash_range_shiftr, Z.shiftr_lxor.
  intros [-> | ->] [-> | ->]; simpl; auto.
Qed.

Lemma xor_all_in_hash_range init hs r :
  in_hash_range init ->
  Forall (λ o, forall x, o = Some x -> in_hash_range x) hs ->
  xor_all init hs = Some r -> in_hash_range r.
Proof.
  intros Hinit Hhs. revert r.
  induction Hhs as [|o hs Ho _ IH]; intros r.
  - intros [= <-]. exact Hinit.
  - rewrite xor_all_cons. destruct o as [h|]; [|discriminate]. simpl.
    destruct (xor_all init hs) as [a|]; [|discriminate]. simpl.
    intros [= <-]. apply lxor_in_hash_range; [apply IH|apply Ho]; reflexivity.
Qed.

Section HashRange.

Hypothesis str_hash_range : forall s, in_hash_range (str_hash s).
Hypothesis int_hash_range : forall n, in_hash_range (int_hash n).
Hypothesis none_hash_range : in_hash_range none_hash.

Lemma hash_in_hash_range v h : hash v = Some h -> in_hash_range h.
Proof. destruct v; simpl; intros [= <-]; auto. Qed.

Lemma entry_hash_in_hash_range :
  forall v key h, entry_hash (key, v) = Some h -> in_hash_range h.
Proof.
  fix IH 1. intros [s|n| |xs|items] key h.
  - simpl. intros [= <-]. apply lxor_in_hash_range; auto.
  - simpl. intros [= <-]. apply lxor_in_hash_range; auto.
  - simpl. intros [= <-]. apply lxor_in_hash_range; auto.
  - discriminate.
  - change (entry_hash (key, VDict items)) with (_get_kwargs_hash items).
    rewrite (get_kwargs_hash_xor_all str_hash int_hash none_hash).
    apply xor_all_in_hash_range; [apply str_hash_range|].
    clear h. induction items as [|[k x] rest IHrest]; constructor.
    + apply (IH x k).
    + exact IHrest.
Qed.

(** X6: when the builtin [hash] returns signed 64-bit numbers, so does
    [__hash__]: the XOR of the parts never leaves the range of a hash
    value. *)
Theorem hash_stays_in_range (self : Action) (h : Z) :
  __hash__ self = Some h -> in_hash_range h.
Proof.
  rewrite (hash_unfold str_hash int_hash none_hash), args_hash_cases.
  destruct (_get_kwargs_hash (kwargs self)) as [kh|] eqn:Hk; [|discriminate].
  simpl.
  destruct (if bool_decide (args self = []) then Some empty_hash
            else xor_all 0 (hash <$> args self)) as [ah|] eqn:Ha; [|discriminate].
  simpl. intros [= <-]. apply lxor_in_hash_range.
  - rewrite (get_kwargs_hash_xor_all str_hash int_hash none_hash) in Hk.
    revert Hk. apply xor_all_in_hash_range; [apply str_hash_range|].
    apply Forall_fmap, Forall_forall. intros [key v] _ x.
    apply entry_hash_in_hash_range.
  - revert Ha. case_bool_decide.
    + intros [= <-]. apply str_hash_range.
    + apply xor_all_in_hash_range.
      * unfold in_hash_range. lia.
      * apply Forall_fmap, Forall_forall. intros v _ x. apply hash_in_hash_range.
Qed.

End HashRange.

End IdentityFurther.

Lemma wrap64_in_hash_range (h : Z) : in_hash_range (wrap64 h).
Proof.
  unfold in_hash_range, wrap64.
  change (2 ^ 64) with 18446744073709551616.
  change (2 ^ 63) with 9223372036854775808.
  Z.div_mod_to_equations. lia.
Qed.

Lemma in_hash_range_0 : in_hash_range 0.
Proof. unfold in_hash_range. lia. Qed.

Lemma hash_succeeds_iff_witness :
  is_Some (__hash__ demo_str_hash demo_int_hash demo_none_hash
             (Action_init [VStr "a"]
                [("attrs", VDict [("class", VStr "x")]); ("limit", VInt 2)])) /\
  ~ is_Some (__hash__ demo_str_hash demo_int_hash demo_none_hash
               (Action_init [VStr "a"]
                  [("attrs", VDict [("class", VList [VStr "x"; VStr "y"])])])).
Proof.
  split.
  - apply hash_succeeds_iff. simpl. split; repeat constructor.
  - rewrite hash_succeeds_iff. simpl. intros [_ H].
    apply Forall_cons in H as [H _]. discriminate.
Defined.

Lemma duplicate_terms_cancel_witness :
  __hash__ demo_str_hash demo_int_hash demo_none_hash
    (Action_init [VStr "a"; VStr "b"; VStr "a"] [("class", VStr "x")])
  = __hash__ demo_str_hash demo_int_hash demo_none_hash
    (Action_init [VStr "b"] [("class", VStr "x")]).
Proof.
  apply (duplicate_terms_cancel demo_str_hash demo_int_hash demo_none_hash
           _ _ (VStr "a")); simpl.
  - reflexivity.
  - discriminate.
  - solve_Permutation.
  - reflexivity.
Defined.

Lemma hash_or_empty_cases_witness :
  _hash_or_empty demo_str_hash demo_int_hash demo_none_hash (VList [])
    = Some (demo_str_hash EmptyString) /\
  _hash_or_empty demo_str_hash demo_int_hash demo_none_hash (VList [VStr "a"])
    = None.
Proof.
  split.
  - apply (proj1 (hash_or_empty_cases demo_str_hash demo_int_hash demo_none_hash
                    (VList []))). reflexivity.
  - apply (proj2 (hash_or_empty_cases demo_str_hash demo_int_hash demo_none_hash
                    (VList [VStr "a"]))). left. eauto.
Defined.

Lemma hash_stays_in_range_witness :
  exists h,
    __hash__ wrapped_str_hash wrapped_int_hash 0
      (Action_init [VStr "div"; VInt (2 ^ 70)]
         [("attrs", VDict [("class", VStr "some_css_class")])]) = Some h /\
    in_hash_range h.
Proof.
  eexists. split; [vm_compute; reflexivity|].
  apply (hash_stays_in_range wrapped_str_hash wrapped_int_hash 0
           (fun s => wrap64_in_hash_range _) (fun n => wrap64_in_hash_range _)
           in_hash_range_0
           (Action_init [VStr "div"; VInt (2 ^ 70)]
              [("attrs", VDict [("class", VStr "some_css_class")])])).
  vm_compute. reflexivity.
Defined.

(** ** CheckPageRepeat *)

Lemma observe_all_cons (g : CheckPageRepeat) (p : string) (pages : list string) :
  observe_all g (p :: pages) = observe_all (__call__ g p).2 pages.
Proof. reflexivity. Qed.

Lemma observe_all_app (g : CheckPageRepeat) (pages later : list string) :
  observe_all g (pages ++ later) = observe_all (observe_all g pages) later.
Proof. unfold observe_all. apply fold_left_app. Qed.

Lemma call_last_page_text (g : CheckPageRepeat) (p : string) :
  __last_page_text (__call__ g p).2 = Some p.
Proof. rewrite call_unfold. case_bool_decide as Heq; simpl; congruence. Qed.

Lemma call_flag (g : CheckPageRepeat) (p : string) :
  (__call__ g p).1 = bool_decide (Some p = __last_page_text g).
Proof. rewrite call_unfold. case_bool_decide; reflexivity. Qed.

(** X7: after a call the stored text is the text of that call, so the next
    call returns [True] exactly when its text equals the text of the call
    before it. *)
Theorem call_compares_with_previous (g : CheckPageRepeat) (pages : list string)
  (q p : string) :
  __last_page_text (observe_all g (pages ++ [q])) = Some q /\
  (__call__ (observe_all g (pages ++ [q])) p).1 = bool_decide (p = q).
Proof.
  assert (Hlast : __last_page_text (observe_all g (pages ++ [q])) = Some q).
  { rewrite observe_all_app. apply call_last_page_text. }
  split; [exact Hlast|].
  rewrite call_unfold, Hlast.
  case_bool_decide as H1; case_bool_decide as H2; simpl; congruence.
Qed.

(** X8: the repeat count counts the calls of a run of equal texts: after
    [n + 1] calls with the same text it is [n] when the run started with a
    new text, and the count before the run plus [n + 1] when the stored text
    already was that text. *)
Theorem repeat_count_of_run (g : CheckPageRepeat) (p : string) (n : nat) :
  __repeat_page (observe_all g (replicate (S n) p)) =
  if bool_decide (__last_page_text g = Some p)
  then __repeat_page g + Z.of_nat (S n)
  else Z.of_nat n.
Proof.
  assert (Hrun : forall k g', __last_page_text g' = Some p ->
            __repeat_page (observe_all g' (replicate k p)) = __repeat_page g' + Z.of_nat k).
  { induction k as [|k IH]; intros g' Hg'; [simpl; lia|].
    simpl replicate. rewrite observe_all_cons, IH by apply call_last_page_text.
    rewrite call_unfold, bool_decide_eq_true_2 by congruence. simpl. lia. }
  case_bool_decide as Hlast.
  - apply Hrun, Hlast.
  - simpl replicate. rewrite observe_all_cons, Hrun by apply call_last_page_text.
    rewrite call_unfold, bool_decide_eq_false_2 by congruence. simpl. lia.
Qed.



(** X10: the threshold given to the constructor is never read: two guards
    that differ only in [max_page_repeat] store the same text, count and
    [check_break] after the same calls, and answer the next call alike. *)
Theorem threshold_never_read (m1 m2 : Z) (pages : list string) (p : string) :
  __last_page_text (observe_all (CheckPageRepeat_init m1) pages)
    = __last_page_text (observe_all (CheckPageRepeat_init m2) pages) /\
  __repeat_page (observe_all (CheckPageRepeat_init m1) pages)
    = __repeat_page (observe_all (CheckPageRepeat_init m2) pages) /\
  check_break (observe_all (CheckPageRepeat_init m1) pages)
    = check_break (observe_all (CheckPageRepeat_init m2) pages) /\
  (__call__ (observe_all (CheckPageRepeat_init m1) pages) p).1
    = (__call__ (observe_all (CheckPageRepeat_init m2) pages) p).1.
Proof.
  assert (Hsame : forall g1 g2,
            __last_page_text g1 = __last_page_text g2 ->
            __repeat_page g1 = __repeat_page g2 ->
            __last_page_text (observe_all g1 pages) = __last_page_text (observe_all g2 pages) /\
            __repeat_page (observe_all g1 pages) = __repeat_page (observe_all g2 pages)).
  { induction pages as [|q pages IH]; intros g1 g2 Hl Hr; [auto|].
    rewrite !observe_all_cons. apply IH.
    - rewrite !call_last_page_text. reflexivity.
    - rewrite !call_unfold, Hl, Hr. case_bool_decide; reflexivity. }
  destruct (Hsame (CheckPageRepeat_init m1) (CheckPageRepeat_init m2) eq_refl eq_refl)
    as [Hl Hr].
  repeat split; [exact Hl|exact Hr|..].
  - rewrite !observe_all_check_break. reflexivity.
  - rewrite !call_unfold, Hl. case_bool_decide; reflexivity.
Qed.

(** ** get_pages *)

Lemma drop_repeats_distinct (last : option string) (pages : list (string * string)) :
  NoDup pages.*2 ->
  (forall t, last = Some t -> t ∉ pages.*2) ->
  drop_repeats last pages = pages.
Proof.
  revert last. induction pages as [|[url t] pages IH]; intros last Hnd Hlast;
    [reflexivity|].
  simpl in *. apply NoDup_cons in Hnd as [Hnotin Hnd].
  rewrite bool_decide_eq_false_2.
  - f_equal. apply IH; [exact Hnd|]. intros t' [= <-]. exact Hnotin.
  - intros Heq. apply (Hlast t); [congruence|left].
Qed.

Lemma drop_repeats_same (t : string) (pages : list (string * string)) :
  Forall (λ page, page.2 = t) pages -> drop_repeats (Some t) pages = [].
Proof.
  induction 1 as [|[url t'] pages Ht _ IH]; [reflexivity|].
  simpl in *. subst t'. rewrite bool_decide_eq_true_2 by reflexivity. exact IH.
Qed.

Section GetPagesFurther.

Variable tag : Type.
Variable BeautifulSoup : string -> tag.
Variable robber : nat -> string -> fetched.

Local Abbreviation submit_all := (submit_all robber).
Local Abbreviation drain := (drain tag BeautifulSoup).
Local Abbreviation get_pages := (get_pages tag BeautifulSoup robber).
Local Abbreviation fetched_pages := (fetched_pages robber).
Local Abbreviation parsed :=
  (fmap (M := list) (λ page : string * string, (page.1, BeautifulSoup page.2))).

Lemma fetched_pages_cons (urls : list string) (i : nat) (later : list nat) :
  fetched_pages urls (i :: later) =
  match submit_all urls !! i with
  | Some (Fetched page_text, url) => (url, page_text) :: fetched_pages urls later
  | _ => fetched_pages urls later
  end.
Proof.
  unfold fetched_pages. cbn [omap list_omap].
  destruct (submit_all urls !! i) as [[[page_text|e] url]|]; reflexivity.
Qed.

(** Without [break] and without a failed future the loop yields the pages
    whose text differs from the text drained just before. *)
Lemma drain_drop_repeats (urls : list string) (g : CheckPageRepeat)
  (completed : list nat) :
  check_break g = false ->
  Forall (λ i, forall e url, submit_all urls !! i <> Some (Failed e, url)) completed ->
  drain (submit_all urls) g completed =
  (parsed (drop_repeats (__last_page_text g) (fetched_pages urls completed)),
   Exhausted).
Proof.
  intros Hg Hok. revert g Hg.
  induction Hok as [|i later Hi _ IH]; intros g Hg; [reflexivity|].
  rewrite fetched_pages_cons. simpl.
  destruct (submit_all urls !! i) as [[[page_text|e] url]|].
  - pose proof (call_check_break g page_text) as Hg'. rewrite Hg in Hg'.
    pose proof (call_last_page_text g page_text) as Hlast.
    pose proof (call_flag g page_text) as Hflag.
    destruct (__call__ g page_text) as [flag g']. simpl in Hg', Hlast, Hflag.
    subst flag. rewrite (IH g' Hg'), Hlast. simpl drop_repeats.
    case_bool_decide as Heq; simpl.
    + rewrite Hg', Heq. reflexivity.
    + reflexivity.
  - exfalso. exact (Hi e url eq_refl).
  - apply IH, Hg.
Qed.

Lemma drain_never_stopped (fs : list (fetched * string)) (g : CheckPageRepeat)
  (completed : list nat) :
  check_break g = false -> (drain fs g completed).2 <> Stopped.
Proof.
  revert g. induction completed as [|i later IH]; intros g Hg; [discriminate|].
  simpl. destruct (fs !! i) as [[[page_text|e] url]|]; [|discriminate|apply IH, Hg].
  pose proof (call_check_break g page_text) as Hg'. rewrite Hg in Hg'.
  destruct (__call__ g page_text) as [[] g']; simpl in *.
  - rewrite Hg'. apply IH, Hg'.
  - specialize (IH g' Hg'). destruct (drain fs g' later). exact IH.
Qed.

Lemma drain_yields_fetched (urls : list string) (g : CheckPageRepeat)
  (completed : list nat) :
  (drain (submit_all urls) g completed).1
    `sublist_of` parsed (fetched_pages urls completed).
Proof.
  revert g. induction completed as [|i later IH]; intros g; [constructor|].
  rewrite fetched_pages_cons. simpl.
  destruct (submit_all urls !! i) as [[[page_text|e] url]|]; simpl.
  - destruct (__call__ g page_text) as [[] g']; simpl.
    + destruct (check_break g'); [apply sublist_nil_l|].
      apply sublist_cons, IH.
    + specialize (IH g'). destruct (drain (submit_all urls) g' later).
      apply sublist_skip, IH.
  - apply sublist_nil_l.
  - apply IH.
Qed.

Lemma no_failure_submitted (urls : list string) (completed : list nat) :
  (forall i url e, urls !! i = Some url -> robber i url <> Failed e) ->
  Forall (λ i, forall e url, submit_all urls !! i <> Some (Failed e, url)) completed.
Proof.
  intros Hok. apply Forall_forall. intros i _ e url.
  rewrite (submit_all_lookup robber).
  destruct (urls !! i) as [u|] eqn:Hu; [|discriminate]. simpl.
  intros [= Hf <-]. exact (Hok i u e Hu Hf).
Qed.

(** X11: [get_pages] never leaves its loop through [break]: it ends when
    the futures are exhausted or with an exception, whatever the pages
    are. *)
Theorem get_pages_never_breaks (self : ThreadAction) (urls : list string)
  (completed : list nat) :
  end_of_pages (get_pages self urls completed) <> Stopped.
Proof.
  rewrite (get_pages_unfold tag BeautifulSoup robber).
  destruct (ThreadPoolExecutor (max_workers self)); [discriminate|].
  simpl. apply drain_never_stopped. reflexivity.
Qed.

(** X12: the yielded pairs come in completion order, and each is the URL
    of a drained future that completed with a page text together with the
    parse of that very text. *)
Theorem yielded_in_completion_order (self : ThreadAction) (urls : list string)
  (completed : list nat) :
  yielded (get_pages self urls completed)
    `sublist_of` parsed (fetched_pages urls completed).
Proof.
  rewrite (get_pages_unfold tag BeautifulSoup robber).
  destruct (ThreadPoolExecutor (max_workers self)); [apply sublist_nil_l|].
  apply drain_yields_fetched.
Qed.

(** X13: when the pool is built and no call fails, [get_pages] runs until
    the futures are exhausted and yields, in completion order, exactly the
    pages whose text differs from the text of the page drained just before:
    the first page is always yielded. *)
Theorem get_pages_drops_consecutive_repeats (self : ThreadAction)
  (urls : list string) (completed : list nat) :
  ThreadPoolExecutor (max_workers self) = inr () ->
  (forall i url e, urls !! i = Some url -> robber i url <> Failed e) ->
  yielded (get_pages self urls completed)
    = parsed (drop_repeats None (fetched_pages urls completed)) /\
  end_of_pages (get_pages self urls completed) = Exhausted.
Proof.
  intros Hpool Hok.
  rewrite (get_pages_unfold tag BeautifulSoup robber), Hpool.
  rewrite (drain_drop_repeats urls (CheckPageRepeat_init 3) completed eq_refl
             (no_failure_submitted urls completed Hok)).
  split; reflexivity.
Qed.


Lemma fetched_pages_elem (urls : list string) (completed : list nat)
  (url page_text : string) :
  (url, page_text) ∈ fetched_pages urls completed ->
  exists i, i ∈ completed /\ urls !! i = Some url /\ robber i url = Fetched page_text.
Proof.
  induction completed as [|i later IH]; [intros H; inversion H|].
  rewrite fetched_pages_cons, (submit_all_lookup robber).
  assert (Hlater : (url, page_text) ∈ fetched_pages urls later ->
            exists i0, i0 ∈ i :: later /\ urls !! i0 = Some url /\
                       robber i0 url = Fetched page_text).
  { intros H. destruct (IH H) as (j & Hj & Hrest). exists j. split; [right|]; auto. }
  destruct (urls !! i) as [u|] eqn:Hu; simpl; [|exact Hlater].
  destruct (robber i u) as [t|e] eqn:Hr; [|exact Hlater].
  intros [[= -> ->]|H]%elem_of_cons; [|exact (Hlater H)].
  exists i. split; [left|]; auto.
Qed.

Lemma fetched_pages_urls (urls : list string) (completed : list nat) :
  Forall (λ i, forall e url, submit_all urls !! i <> Some (Failed e, url)) completed ->
  (fetched_pages urls completed).*1 = omap (λ i, snd <$> submit_all urls !! i) completed.
Proof.
  induction 1 as [|i later Hi _ IH]; [reflexivity|].
  rewrite fetched_pages_cons. cbn [omap list_omap].
  destruct (submit_all urls !! i) as [[[page_text|e] url]|]; simpl.
  - f_equal. exact IH.
  - exfalso. exact (Hi e url eq_refl).
  - exact IH.
Qed.

Lemma fetched_pages_distinct (urls : list string) (completed : list nat) :
  (forall i j u v t, urls !! i = Some u -> urls !! j = Some v ->
     robber i u = Fetched t -> robber j v = Fetched t -> i = j) ->
  NoDup completed ->
  NoDup (fetched_pages urls completed).*2.
Proof.
  intros Hinj. induction 1 as [|i later Hnotin _ IH]; [constructor|].
  rewrite fetched_pages_cons, (submit_all_lookup robber).
  destruct (urls !! i) as [u|] eqn:Hu; simpl; [|exact IH].
  destruct (robber i u) as [t|e] eqn:Hr; [|exact IH].
  rewrite fmap_cons. apply NoDup_cons. split; [|exact IH].
  intros Hin. apply list_elem_of_fmap in Hin as ([v t'] & Ht & Hin). simpl in Ht.
  subst t'. apply fetched_pages_elem in Hin as (j & Hj & Hv & Hrj).
  apply Hnotin. rewrite (Hinj i j u v t Hu Hv Hr Hrj). exact Hj.
Qed.

(** X14: when the pool is built, no call fails and no two calls return the
    same page text, [get_pages] yields one pair for every position of the
    URL list, whatever the completion order: the yielded URLs are the input
    URLs up to order. *)
Theorem distinct_pages_all_yielded (self : ThreadAction) (urls : list string)
  (completed : list nat) :
  ThreadPoolExecutor (max_workers self) = inr () ->
  completed ≡ₚ seq 0 (length urls) ->
  (forall i url e, urls !! i = Some url -> robber i url <> Failed e) ->
  (forall i j u v t, urls !! i = Some u -> urls !! j = Some v ->
     robber i u = Fetched t -> robber j v = Fetched t -> i = j) ->
  (yielded (get_pages self urls completed)).*1 ≡ₚ urls /\
  length (yielded (get_pages self urls completed)) = length urls /\
  end_of_pages (get_pages self urls completed) = Exhausted.
Proof.
  intros Hpool Hperm Hok Hinj.
  pose proof (no_failure_submitted urls completed Hok) as Hnf.
  assert (Hy : yielded (get_pages self urls completed)
               = parsed (fetched_pages urls completed)).
  { rewrite (get_pages_unfold tag BeautifulSoup robber), Hpool.
    rewrite (drain_drop_repeats urls (CheckPageRepeat_init 3) completed eq_refl Hnf).
    simpl. rewrite drop_repeats_distinct; [reflexivity| |discriminate].
    apply fetched_pages_distinct; [exact Hinj|].
    rewrite Hperm. apply NoDup_seq. }
  assert (Hurls : (yielded (get_pages self urls completed)).*1 ≡ₚ urls).
  { rewrite Hy, <- list_fmap_compose.
    change (fst ∘ _) with (fst : string * string -> string).
    rewrite (fetched_pages_urls urls completed Hnf).
    apply (completed_urls robber), Hperm. }
  split; [exact Hurls|]. split.
  - rewrite <- (length_fmap fst). apply Permutation_length, Hurls.
  - rewrite (get_pages_unfold tag BeautifulSoup robber), Hpool.
    rewrite (drain_drop_repeats urls (CheckPageRepeat_init 3) completed eq_refl Hnf).
    reflexivity.
Qed.

(** X15: when the pool is built and every call returns the same page
    text, only the page of the future that completes first is yielded, and
    the loop still drains every future. *)
Theorem same_page_yielded_once (self : ThreadAction) (urls : list string)
  (first : nat) (later : list nat) (url page_text : string) :
  ThreadPoolExecutor (max_workers self) = inr () ->
  urls !! first = Some url ->
  (forall i u, urls !! i = Some u -> robber i u = Fetched page_text) ->
  yielded (get_pages self urls (first :: later)) = [(url, BeautifulSoup page_text)] /\
  end_of_pages (get_pages self urls (first :: later)) = Exhausted.
Proof.
  intros Hpool Hfirst Hsame.
  assert (Hok : forall i u e, urls !! i = Some u -> robber i u <> Failed e).
  { intros i u e Hu. rewrite (Hsame i u Hu). discriminate. }
  rewrite (get_pages_unfold tag BeautifulSoup robber), Hpool.
  rewrite (drain_drop_repeats urls (CheckPageRepeat_init 3) (first :: later) eq_refl
             (no_failure_submitted urls _ Hok)).
  split; [|reflexivity].
  rewrite fetched_pages_cons, (submit_all_lookup robber), Hfirst.
  cbn [fmap option_fmap option_map]. rewrite (Hsame first url Hfirst).
  cbn [yielded fst __last_page_text CheckPageRepeat_init drop_repeats].
  rewrite bool_decide_eq_false_2 by discriminate.
  rewrite drop_repeats_same; [reflexivity|].
  apply Forall_forall. intros [u t] Hin. simpl.
  apply fetched_pages_elem in Hin as (i & _ & Hu & Hr).
  rewrite (Hsame i u Hu) in Hr. congruence.
Qed.

End GetPagesFurther.

Lemma echo_robber_never_fails (urls : list string) :
  forall i url e, urls !! i = Some url -> echo_robber i url <> Failed e.
Proof. discriminate. Qed.

Lemma get_pages_drops_consecutive_repeats_witness :
  yielded (get_pages string id echo_robber (ThreadAction_init [] [])
             ["u"; "u"; "v"; "u"] [0; 1; 2; 3]%nat)
    = [("u", "u"); ("v", "v"); ("u", "u")] /\
  end_of_pages (get_pages string id echo_robber (ThreadAction_init [] [])
                  ["u"; "u"; "v"; "u"] [0; 1; 2; 3]%nat) = Exhausted.
Proof.
  apply (get_pages_drops_consecutive_repeats string id echo_robber
           (ThreadAction_init [] []) ["u"; "u"; "v"; "u"] [0; 1; 2; 3]%nat).
  - reflexivity.
  - apply echo_robber_never_fails.
Defined.

Lemma distinct_pages_all_yielded_witness :
  (yielded (get_pages string id echo_robber (ThreadAction_init [] [])
              ["u"; "v"; "w"] [2; 0; 1]%nat)).*1 ≡ₚ ["u"; "v"; "w"] /\
  length (yielded (get_pages string id echo_robber (ThreadAction_init [] [])
                     ["u"; "v"; "w"] [2; 0; 1]%nat)) = 3%nat /\
  end_of_pages (get_pages string id echo_robber (ThreadAction_init [] [])
                  ["u"; "v"; "w"] [2; 0; 1]%nat) = Exhausted.
Proof.
  apply (distinct_pages_all_yielded string id echo_robber
           (ThreadAction_init [] []) ["u"; "v"; "w"] [2; 0; 1]%nat).
  - reflexivity.
  - simpl. solve_Permutation.
  - apply echo_robber_never_fails.
  - intros i j u v t Hu Hv Hi Hj.
    injection Hi as ->. injection Hj as ->.
    apply (NoDup_lookup ["u"; "v"; "w"] i j t); [|exact Hu|exact Hv].
    apply (bool_decide_unpack _). vm_compute. exact I.
Defined.

Lemma same_page_yielded_once_witness :
  yielded (get_pages string id constant_robber (ThreadAction_init [] [])
             ["a"; "b"; "c"] [1; 0; 2]%nat) = [("b", "SAME")] /\
  end_of_pages (get_pages string id constant_robber (ThreadAction_init [] [])
                  ["a"; "b"; "c"] [1; 0; 2]%nat) = Exhausted.
Proof.
  apply (same_page_yielded_once string id constant_robber
           (ThreadAction_init [] []) ["a"; "b"; "c"] 1%nat [0; 2]%nat "b" "SAME").
  - reflexivity.
  - reflexivity.
  - reflexivity.
Defined.

